(** * The generic-adapter configuration manager
    (pkg/controller/jobs/generic/config.go)

    A shallow embedding of [ConfigManager] and of its four methods.  The
    manager owns one Go map from strings to configuration entries; the map is
    a [gmap string _], the methods are computations in a small state monad
    over the manager and the klog output, and Go strings are byte strings. *)

From Stdlib Require Import Ascii.
From stdpp Require Import gmap strings list fin_maps pretty.

(** ** Go's [strings] package, for a separator of one byte

    config.go reaches [strings.Count] and [strings.SplitN] through
    [schema.ParseKindArg], always with the separator ["."]. *)
Module strings.

(** [strings.Count(s, sep)]: the number of occurrences of the byte [sep]. *)
Fixpoint Count (s : string) (sep : ascii) : nat :=
  match s with
  | EmptyString => 0
  | String c rest =>
      if decide (c = sep) then S (Count rest sep) else Count rest sep
  end.

(** [strings.Cut(s, sep)]: the text before and after the first [sep];
    [None] stands for [found = false]. *)
Fixpoint Cut (s : string) (sep : ascii) : option (string * string) :=
  match s with
  | EmptyString => None
  | String c rest =>
      if decide (c = sep) then Some (EmptyString, rest)
      else match Cut rest sep with
           | Some (before, after) => Some (String c before, after)
           | None => None
           end
  end.

(** [strings.SplitN(s, sep, n)] for [n >= 0]: at most [n] substrings, the
    last one being the unsplit remainder; [n = 0] gives no substring. *)
Fixpoint SplitN (s : string) (sep : ascii) (n : nat) : list string :=
  match n with
  | 0 => []
  | 1 => [s]
  | S n' =>
      match Cut s sep with
      | Some (before, after) => before :: SplitN after sep n'
      | None => [s]
      end
  end.

End strings.

(** ** k8s.io/apimachinery/pkg/runtime/schema

    What config.go calls of the package it imports as [schema], after the
    source of that package. *)
Module schema.

Record GroupVersionKind : Type := {
  Group : string;
  Version : string;
  Kind : string
}.

Record GroupKind : Type := {
  gkGroup : string;
  gkKind : string
}.

(** [func (gvk GroupVersionKind) String() string]:
    [gvk.Group + "/" + gvk.Version + ", Kind=" + gvk.Kind]. *)
Definition String (gvk : GroupVersionKind) : string :=
  Group gvk +:+ "/" +:+ Version gvk +:+ ", Kind=" +:+ Kind gvk.

(** [func ParseGroupKind(gk string) GroupKind]:
<<
    i := strings.Index(gk, ".")
    if i == -1 {
        return GroupKind{Kind: gk}
    }
    return GroupKind{Group: gk[i+1:], Kind: gk[:i]}
>>
    [gk[:i]] and [gk[i+1:]] are the two parts [strings.Cut] returns. *)
Definition ParseGroupKind (gk : string) : GroupKind :=
  match strings.Cut gk "." with
  | None => {| gkGroup := ""; gkKind := gk |}
  | Some (before, after) => {| gkGroup := after; gkKind := before |}
  end.

(** [schema.ParseKindArg], which returns a pointer to a
    [GroupVersionKind] and a [GroupKind]:
<<
    var gvk *GroupVersionKind
    if strings.Count(arg, ".") >= 2 {
        s := strings.SplitN(arg, ".", 3)
        gvk = &GroupVersionKind{Group: s[2], Version: s[1], Kind: s[0]}
    }
    return gvk, ParseGroupKind(arg)
>>
    The pointer is an [option]; [None] is [nil].  The last branch of the
    match is the index panic of [s[2]], which [SplitN_two_dots] below shows
    is never taken. *)
Definition ParseKindArg (arg : string) : option GroupVersionKind * GroupKind :=
  let gvk :=
    if decide (2 ≤ strings.Count arg ".") then
      match strings.SplitN arg "." 3 with
      | [s0; s1; s2] => Some {| Group := s2; Version := s1; Kind := s0 |}
      | _ => None
      end
    else None in
  (gvk, ParseGroupKind arg).

End schema.

(** ** sigs.k8s.io/kueue/apis/config/v1beta1

    The declaration of [MultiKueueExternalFramework] lies outside config.go,
    which reads nothing but the [Name] field.  The manager below is therefore
    stated for any entry type with a [Name]. *)
Module configapi.

(** Modelled from the spec: the declaration of the entry type is missing;
    the specification has a named record with at minimum a [Name] field,
    and this record, with that one field, is the instance the examples run
    on. *)
Record MultiKueueExternalFramework : Type := { Name : string }.

End configapi.

(** ** Errors

    The [error] values config.go builds with [fmt.Errorf], one constructor per
    format string, holding the arguments of the format. *)
Inductive error : Type :=
  | ErrNameRequired
      (* fmt.Errorf("name is required") *)
  | ErrInvalidGVKFormat (name : string)
      (* fmt.Errorf("invalid GVK format '%s'", config.Name) *)
  | ErrConfig (name : string) (err : error)
      (* fmt.Errorf("config %s: %w", config.Name, err) *)
  | ErrInvalidGVKInConfiguration (name : string)
      (* fmt.Errorf("invalid GVK format in configuration: %s", config.Name) *)
  | ErrEncountered (n : nat).
      (* fmt.Errorf("encountered %d configuration errors (see logs for details)", len(errors)) *)

(** [err.Error()]: the formatted message. *)
Fixpoint Error (err : error) : string :=
  match err with
  | ErrNameRequired => "name is required"
  | ErrInvalidGVKFormat name => "invalid GVK format '" +:+ name +:+ "'"
  | ErrConfig name err' => "config " +:+ name +:+ ": " +:+ Error err'
  | ErrInvalidGVKInConfiguration name =>
      "invalid GVK format in configuration: " +:+ name
  | ErrEncountered n =>
      "encountered " +:+ pretty n +:+ " configuration errors (see logs for details)"
  end.

(** Modelled from the spec: the declaration of [genericAdapter] is missing;
    the specification has a handle that carries exactly one identifier, and
    config.go sets the [gvk] field and nothing else. *)
Record genericAdapter : Type := { gvk : schema.GroupVersionKind }.

Section ConfigManager.

(** The entry type and its [Name] field. *)
Context {MultiKueueExternalFramework : Type}.
Variable Name : MultiKueueExternalFramework → string.

(** [type ConfigManager struct { configs map[string]configapi.MultiKueueExternalFramework }] *)
Record ConfigManager : Type := {
  configs : gmap string MultiKueueExternalFramework
}.

(** What a method can read and write: the manager behind the receiver
    [cm] and the lines handed to klog. *)
Record state : Type := {
  cm : ConfigManager;
  klog : list string
}.

(** *** The state monad of the methods *)
Definition M (A : Type) : Type := state → A * state.

Global Instance M_ret : MRet M := λ A a s, (a, s).

Global Instance M_bind : MBind M :=
  λ A B k m s, let (a, s') := m s in k a s'.

(** [cm.configs], read. *)
Definition get_configs : M (gmap string MultiKueueExternalFramework) :=
  λ s, (configs (cm s), s).

(** [cm.configs = m] *)
Definition set_configs (m : gmap string MultiKueueExternalFramework) : M unit :=
  λ s, (tt, {| cm := {| configs := m |}; klog := klog s |}).

(** [cm.configs[key] = config] *)
Definition store_config (key : string) (config : MultiKueueExternalFramework)
  : M unit :=
  λ s, (tt, {| cm := {| configs := <[key := config]> (configs (cm s)) |};
               klog := klog s |}).

(** [klog.Error] and [klog.Errorf]: one more line of output. *)
Definition klog_Error (line : string) : M unit :=
  λ s, (tt, {| cm := cm s; klog := klog s ++ [line] |}).

(** [NewConfigManager]: a manager with an empty map. *)
Definition NewConfigManager : ConfigManager := {| configs := ∅ |}.

(** [validateConfig]: [None] is the [nil] error. *)
Definition validateConfig (config : MultiKueueExternalFramework)
  : option error :=
  if decide (Name config = "") then Some ErrNameRequired
  else
    match (schema.ParseKindArg (Name config)).1 with
    | None => Some (ErrInvalidGVKFormat (Name config))
    | Some _ => None
    end.

(** The body of the loop of [LoadConfigurations], for one [config]; the
    local slice [errors] goes in and comes out. *)
Definition load_config (errors : list error)
    (config : MultiKueueExternalFramework) : M (list error) :=
  match validateConfig config with
  | Some err =>
      klog_Error ("Invalid external framework configuration: " +:+ Error err) ;;
      mret (errors ++ [ErrConfig (Name config) err])
  | None =>
      match (schema.ParseKindArg (Name config)).1 with
      | None =>
          let err := ErrInvalidGVKInConfiguration (Name config) in
          klog_Error (Error err) ;;
          mret (errors ++ [err])
      | Some gvk =>
          store_config (schema.String gvk) config ;;
          mret errors
      end
  end.

(** [for _, config := range configs { ... }] *)
Fixpoint load_range (errors : list error)
    (configs : list MultiKueueExternalFramework) : M (list error) :=
  match configs with
  | [] => mret errors
  | config :: rest =>
      errors' ← load_config errors config ;
      load_range errors' rest
  end.

(** [LoadConfigurations]: [None] is the [nil] error. *)
Definition LoadConfigurations (configs : list MultiKueueExternalFramework)
  : M (option error) :=
  set_configs ∅ ;;
  errors ← load_range [] configs ;
  if decide (0 < length errors) then
    mret (Some (ErrEncountered (length errors)))
  else mret None.

(** [GetAdapter]: [None] is the [nil] adapter. *)
Definition GetAdapter (gvk : schema.GroupVersionKind)
  : M (option genericAdapter) :=
  m ← get_configs ;
  match m !! schema.String gvk with
  | None => mret None
  | Some _ => mret (Some {| gvk := gvk |})
  end.

(** The body of the loop of [GetAllAdapters], for one map entry. *)
Definition adapter_of_entry (adapters : list genericAdapter)
    (entry : string * MultiKueueExternalFramework) : M (list genericAdapter) :=
  match (schema.ParseKindArg (Name entry.2)).1 with
  | None =>
      klog_Error ("Failed to parse GVK string " +:+ Name entry.2) ;;
      mret adapters
  | Some gvk => mret (adapters ++ [{| gvk := gvk |}])
  end.

Fixpoint adapters_range (adapters : list genericAdapter)
    (entries : list (string * MultiKueueExternalFramework))
  : M (list genericAdapter) :=
  match entries with
  | [] => mret adapters
  | entry :: rest =>
      adapters' ← adapter_of_entry adapters entry ;
      adapters_range adapters' rest
  end.

(** Go leaves the order in which [range] visits a map open: [order] is a
    possible one for [m] when it lists the entries of [m], each once. *)
Definition range_order (m : gmap string MultiKueueExternalFramework)
    (order : list (string * MultiKueueExternalFramework)) : Prop :=
  order ≡ₚ map_to_list m.

(** [GetAllAdapters], the map being visited in the given [order]. *)
Definition GetAllAdapters_in
    (order : list (string * MultiKueueExternalFramework))
  : M (list genericAdapter) :=
  adapters_range [] order.

(** [GetAllAdapters], the map being visited in the order of [map_to_list]. *)
Definition GetAllAdapters : M (list genericAdapter) :=
  m ← get_configs ;
  GetAllAdapters_in (map_to_list m).

(** *** Notions the statements are phrased with *)

(** An entry [LoadConfigurations] turns down: its name is empty or is not
    a kind reference. *)
Definition rejected (config : MultiKueueExternalFramework) : Prop :=
  Name config = "" ∨ (schema.ParseKindArg (Name config)).1 = None.

Global Instance rejected_dec config : Decision (rejected config).
Proof. unfold rejected. apply _. Defined.

(** The key [gvk.String()] under which [LoadConfigurations] files an entry,
    when its name parses. *)
Definition key_of (config : MultiKueueExternalFramework) : option string :=
  schema.String <$> (schema.ParseKindArg (Name config)).1.

(** The adapter [GetAllAdapters] builds from an entry, when its name
    parses. *)
Definition adapter_for (config : MultiKueueExternalFramework)
  : option genericAdapter :=
  Build_genericAdapter <$> (schema.ParseKindArg (Name config)).1.

(** What [LoadConfigurations] returns after [n] errors. *)
Definition load_result (n : nat) : option error :=
  if decide (0 < n) then Some (ErrEncountered n) else None.

(** The effect of one turn of the loop of [LoadConfigurations] on the map. *)
Definition store_accepted (m : gmap string MultiKueueExternalFramework)
    (config : MultiKueueExternalFramework)
  : gmap string MultiKueueExternalFramework :=
  match validateConfig config, (schema.ParseKindArg (Name config)).1 with
  | None, Some gvk => <[schema.String gvk := config]> m
  | _, _ => m
  end.

(** The line klog gets for a rejected entry: the message of the error of
    [validateConfig] after the words of [LoadConfigurations]. *)
Definition rejection_line (config : MultiKueueExternalFramework) : string :=
  "Invalid external framework configuration: " +:+
  (if decide (Name config = "") then "name is required"
   else "invalid GVK format '" +:+ Name config +:+ "'").

(** Every entry of the map is one [validateConfig] accepts, filed under the
    string of the identifier of its own name, which is not the empty
    string. *)
Definition well_keyed (m : gmap string MultiKueueExternalFramework) : Prop :=
  ∀ key config, m !! key = Some config →
    key ≠ "" ∧ validateConfig config = None ∧ key_of config = Some key.

(** *** The manager in use

    The field [configs] is not exported: the code outside the package
    reaches the map through the three exported methods and no other way. *)
Inductive call : Type :=
  | CallLoadConfigurations (batch : list MultiKueueExternalFramework)
  | CallGetAdapter (gvk : schema.GroupVersionKind)
  | CallGetAllAdapters.

Definition after_call (s : state) (c : call) : state :=
  match c with
  | CallLoadConfigurations batch => (LoadConfigurations batch s).2
  | CallGetAdapter gvk => (GetAdapter gvk s).2
  | CallGetAllAdapters => (GetAllAdapters s).2
  end.

Definition after_calls (s : state) (calls : list call) : state :=
  foldl after_call s calls.

End ConfigManager.

(** ** The batches the examples run on *)
Module Examples.

Import configapi.

Definition entry (name : string) : MultiKueueExternalFramework :=
  {| Name := name |}.

(** A fresh manager and no klog output. *)
Definition fresh : @state MultiKueueExternalFramework :=
  {| cm := NewConfigManager; klog := [] |}.

(** A manager that holds one entry from an earlier load. *)
Definition used : @state MultiKueueExternalFramework :=
  {| cm := {| configs := {[ "apps/v1, Kind=Deployment" := entry "Deployment.v1.apps" ]} |};
     klog := ["earlier output"] |}.

(** The batch of the scenario of the specification. *)
Definition scenario : list MultiKueueExternalFramework :=
  [entry "Pod.v1."; entry ""; entry "Job.v1.batch"].

Definition valid_batch : list MultiKueueExternalFramework :=
  [entry "Pod.v1."; entry "Job.v1.batch"; entry "MyJob.v1.batch.example.com"].

(** Two names, the same key ["x/y/z, Kind=k"]. *)
Definition colliding : list MultiKueueExternalFramework :=
  [entry "k.y/z.x"; entry "Pod"; entry "k.z.x/y"].

End Examples.

(** * Facts *)

(** ** Splitting at dots *)

Lemma Count_app (a b : string) (sep : ascii) :
  strings.Count (a +:+ b) sep = strings.Count a sep + strings.Count b sep.
Proof.
  induction a as [|c a IH]; simpl; [done|].
  case_decide; rewrite IH; done.
Qed.

Lemma Cut_is_Some (s : string) (sep : ascii) :
  0 < strings.Count s sep →
  ∃ before after,
    strings.Cut s sep = Some (before, after) ∧
    strings.Count s sep = S (strings.Count after sep).
Proof.
  induction s as [|c s IH]; simpl; [lia|].
  case_decide as Hc.
  - intros _. by eexists _, _.
  - intros [before [after [-> Hn]]]%IH. by eexists _, _.
Qed.

Lemma Cut_None (s : string) (sep : ascii) :
  strings.Count s sep = 0 → strings.Cut s sep = None.
Proof.
  induction s as [|c s IH]; simpl; [done|].
  case_decide; [done|]. by intros ->%IH.
Qed.

Lemma Cut_app (a b : string) (sep : ascii) :
  strings.Count a sep = 0 →
  strings.Cut (a +:+ String sep b) sep = Some (a, b).
Proof.
  induction a as [|c a IH]; simpl.
  - intros _. by rewrite decide_True.
  - case_decide; [done|]. by intros ->%IH.
Qed.

(** [s[0]], [s[1]] and [s[2]] exist where [ParseKindArg] reads them. *)
Lemma SplitN_two_dots (arg : string) :
  2 ≤ strings.Count arg "." →
  ∃ s0 s1 s2, strings.SplitN arg "." 3 = [s0; s1; s2].
Proof.
  intros Hn. simpl.
  destruct (Cut_is_Some arg "." ltac:(lia)) as (s0 & r & -> & Hr).
  destruct (Cut_is_Some r "." ltac:(lia)) as (s1 & s2 & -> & _).
  by eexists _, _, _.
Qed.

(** [ParseKindArg] returns an identifier exactly for two dots or more. *)
Lemma ParseKindArg_is_Some (arg : string) :
  is_Some (schema.ParseKindArg arg).1 ↔ 2 ≤ strings.Count arg ".".
Proof.
  unfold schema.ParseKindArg. cbn [fst]. case_decide as Hn.
  - destruct (SplitN_two_dots arg Hn) as (s0 & s1 & s2 & ->). naive_solver.
  - split; [by intros [? ?]|done].
Qed.

Lemma ParseKindArg_groupless (kind version : string) :
  strings.Count kind "." = 0 → strings.Count version "." = 0 →
  (schema.ParseKindArg (kind +:+ "." +:+ version +:+ ".")).1 =
    Some {| schema.Group := ""; schema.Version := version; schema.Kind := kind |}.
Proof.
  intros Hk Hv. unfold schema.ParseKindArg. cbn [fst].
  rewrite decide_True.
  - change (strings.SplitN ?s "." 3) with
      (match strings.Cut s "." with
       | Some (before, after) =>
           before :: match strings.Cut after "." with
                     | Some (before', after') => [before'; after']
                     | None => [after]
                     end
       | None => [s]
       end).
    change ("." +:+ ?s) with (String "." s).
    rewrite Cut_app by done. by rewrite Cut_app by done.
  - rewrite !Count_app, Hk, Hv. simpl. lia.
Qed.

(** ** Names and identifiers, back and forth *)

Lemma Cut_Some (s before after : string) (sep : ascii) :
  strings.Cut s sep = Some (before, after) →
  s = before +:+ String sep after ∧ strings.Count before sep = 0.
Proof.
  revert before. induction s as [|c s IH]; intros before; simpl; [done|].
  case_decide as Hc.
  - intros [= <- <-]. by rewrite Hc.
  - destruct (strings.Cut s sep) as [[before' after']|] eqn:Hcut; [|done].
    intros [= <- <-]. destruct (IH before' eq_refl) as [-> Hcount].
    simpl. by rewrite decide_False.
Qed.

(** The name is the kind, the version and the group of its identifier,
    with a dot between them, and the first two have no dot. *)
Lemma ParseKindArg_Some (arg : string) (gvk : schema.GroupVersionKind) :
  (schema.ParseKindArg arg).1 = Some gvk →
  arg = schema.Kind gvk +:+ "." +:+ schema.Version gvk +:+ "." +:+
        schema.Group gvk ∧
  strings.Count (schema.Kind gvk) "." = 0 ∧
  strings.Count (schema.Version gvk) "." = 0.
Proof.
  unfold schema.ParseKindArg. cbn [fst]. case_decide as Hdots; [|done].
  cbn [strings.SplitN].
  destruct (strings.Cut arg ".") as [[s0 rest]|] eqn:Hcut0; [|done].
  destruct (strings.Cut rest ".") as [[s1 s2]|] eqn:Hcut1; [|done].
  intros [= <-]. cbn [schema.Kind schema.Version schema.Group].
  apply Cut_Some in Hcut0 as [-> Hs0]. apply Cut_Some in Hcut1 as [-> Hs1].
  done.
Qed.

(** An identifier whose kind and version have no dot is the one its name
    parses to. *)
Lemma ParseKindArg_join (gvk : schema.GroupVersionKind) :
  strings.Count (schema.Kind gvk) "." = 0 →
  strings.Count (schema.Version gvk) "." = 0 →
  (schema.ParseKindArg
     (schema.Kind gvk +:+ "." +:+ schema.Version gvk +:+ "." +:+
      schema.Group gvk)).1 = Some gvk.
Proof.
  intros Hkind Hversion. unfold schema.ParseKindArg. cbn [fst].
  rewrite decide_True.
  - cbn [strings.SplitN].
    change ("." +:+ schema.Group gvk) with (String "." (schema.Group gvk)).
    change ("." +:+ ?s) with (String "." s).
    rewrite Cut_app by done. cbv beta iota.
    rewrite Cut_app by done. by destruct gvk.
  - change ("." +:+ schema.Group gvk) with (String "." (schema.Group gvk)).
    change ("." +:+ ?s) with (String "." s).
    rewrite Count_app. simpl. rewrite Count_app. simpl. lia.
Qed.

Lemma String_not_empty (gvk : schema.GroupVersionKind) :
  schema.String gvk ≠ "".
Proof. unfold schema.String. by destruct (schema.Group gvk). Qed.

(** The strings of two identifiers tell them apart when the groups have no
    slash and the versions no comma. *)
Lemma String_inj (gvk1 gvk2 : schema.GroupVersionKind) :
  strings.Count (schema.Group gvk1) "/" = 0 →
  strings.Count (schema.Group gvk2) "/" = 0 →
  strings.Count (schema.Version gvk1) "," = 0 →
  strings.Count (schema.Version gvk2) "," = 0 →
  schema.String gvk1 = schema.String gvk2 → gvk1 = gvk2.
Proof.
  destruct gvk1 as [g1 v1 k1], gvk2 as [g2 v2 k2]. unfold schema.String.
  cbn [schema.Group schema.Version schema.Kind].
  intros Hg1 Hg2 Hv1 Hv2 Heq.
  change ("/" +:+ ?s) with (String "/" s) in Heq.
  apply (f_equal (λ s, strings.Cut s "/")) in Heq.
  rewrite !Cut_app in Heq by done. injection Heq as -> Heq.
  change (", Kind=" +:+ ?s) with (String "," (" Kind=" +:+ s)) in Heq.
  apply (f_equal (λ s, strings.Cut s ",")) in Heq.
  rewrite !Cut_app in Heq by done. injection Heq as -> Heq.
  simpl in Heq. by simplify_eq.
Qed.

(** From here on the parser is a function like any other. *)
Arguments schema.ParseKindArg : simpl never.

(** ** The manager *)
Section ConfigManagerFacts.

Context {MultiKueueExternalFramework : Type}.
Variable Name : MultiKueueExternalFramework → string.

Implicit Types config : MultiKueueExternalFramework.
Implicit Types batch : list MultiKueueExternalFramework.
Implicit Types m : gmap string MultiKueueExternalFramework.
Implicit Types s : @state MultiKueueExternalFramework.
Implicit Types errors : list error.

Local Abbreviation validateConfig := (validateConfig Name).
Local Abbreviation rejected := (rejected Name).
Local Abbreviation key_of := (key_of Name).
Local Abbreviation store_accepted := (store_accepted Name).
Local Abbreviation LoadConfigurations := (LoadConfigurations Name).

(** The error [validateConfig] has for an entry, wrapped as the loop of
    [LoadConfigurations] wraps it, and the line klog gets for it. *)
Local Abbreviation wrapped config :=
  (ErrConfig (Name config) <$> validateConfig config).
Local Abbreviation reported config :=
  ((λ err, "Invalid external framework configuration: " +:+ Error err)
     <$> validateConfig config).

Local Ltac run :=
  unfold mbind, M_bind, mret, M_ret, klog_Error, store_config,
    set_configs, get_configs; cbn.

(** *** [validateConfig] *)

Lemma validateConfig_None config :
  validateConfig config = None ↔
  Name config ≠ "" ∧ is_Some (schema.ParseKindArg (Name config)).1.
Proof.
  unfold validateConfig. case_decide as Hname.
  - split; [done|]. by intros [? _].
  - destruct (schema.ParseKindArg (Name config)).1 eqn:Hparse.
    + split; [|done]. intros _. split; [done|by eexists].
    + split; [done|]. by intros [_ [? ?]].
Qed.

Lemma validateConfig_rejected config :
  validateConfig config ≠ None ↔ rejected config.
Proof.
  rewrite validateConfig_None. unfold rejected. split.
  - intros Hno. destruct (decide (Name config = "")) as [|Hname]; [by left|].
    right. destruct (schema.ParseKindArg (Name config)).1 eqn:Hparse; [|done].
    destruct Hno. split; [done|by eexists].
  - intros [Hname|Hparse] [Hne Hsome]; [done|].
    rewrite Hparse in Hsome. by destruct Hsome.
Qed.

Lemma validateConfig_key config :
  validateConfig config = None → is_Some (key_of config).
Proof.
  intros [_ [gvk Hgvk]]%validateConfig_None.
  unfold key_of. rewrite Hgvk. by eexists.
Qed.

Lemma rejected_errors batch :
  length (omap (λ config, wrapped config) batch) =
  length (filter rejected batch).
Proof.
  induction batch as [|config batch IH]; [done|].
  cbn [omap list_omap].
  destruct (decide (rejected config)) as [Hr|Hr].
  - rewrite filter_cons_True by done.
    apply validateConfig_rejected in Hr.
    destruct (validateConfig config); [|done]. simpl. by f_equal.
  - rewrite filter_cons_False by done.
    destruct (validateConfig config) eqn:Hv; [|done].
    destruct Hr. apply validateConfig_rejected. by rewrite Hv.
Qed.

(** A batch of accepted entries has no rejected one to count. *)
Lemma rejected_none batch :
  Forall (λ config, validateConfig config = None) batch →
  filter rejected batch = [].
Proof.
  induction 1 as [|config batch Hv _ IH]; [done|].
  rewrite filter_cons_False; [done|].
  intros Hr. by apply validateConfig_rejected in Hr.
Qed.

(** *** The loop of [LoadConfigurations] *)

Lemma load_config_eq errors config s :
  load_config Name errors config s =
    (errors ++ option_list (wrapped config),
     {| cm := {| configs := store_accepted (configs (cm s)) config |};
        klog := klog s ++ option_list (reported config) |}).
Proof.
  unfold load_config, store_accepted.
  destruct (validateConfig config) as [err|] eqn:Hv.
  - run. by destruct s as [[?] ?].
  - apply validateConfig_None in Hv as [_ [gvk ->]]. run.
    by rewrite !app_nil_r.
Qed.

Lemma load_range_eq batch errors s :
  load_range Name errors batch s =
    (errors ++ omap (λ config, wrapped config) batch,
     {| cm := {| configs := foldl store_accepted (configs (cm s)) batch |};
        klog := klog s ++ omap (λ config, reported config) batch |}).
Proof.
  revert errors s.
  induction batch as [|config batch IH]; intros errors s; simpl.
  - run. rewrite !app_nil_r. by destruct s as [[?] ?].
  - unfold mbind, M_bind at 1. rewrite load_config_eq, IH. simpl.
    destruct (validateConfig config); simpl;
      by rewrite <- ?app_assoc, ?app_nil_r.
Qed.

Lemma LoadConfigurations_eq batch s :
  LoadConfigurations batch s =
    (load_result (length (filter rejected batch)),
     {| cm := {| configs := foldl store_accepted ∅ batch |};
        klog := klog s ++ omap (λ config, reported config) batch |}).
Proof.
  unfold LoadConfigurations, mbind, M_bind at 1 2, set_configs.
  rewrite load_range_eq. simpl.
  rewrite rejected_errors. unfold load_result.
  by case_decide.
Qed.

(** *** The map [LoadConfigurations] builds *)

Lemma store_accepted_key m config key :
  validateConfig config = None → key_of config = Some key →
  store_accepted m config = <[key := config]> m.
Proof.
  unfold store_accepted, key_of. intros -> Hkey.
  destruct (schema.ParseKindArg (Name config)).1; simplify_eq/=; done.
Qed.

Lemma store_accepted_rejected m config :
  validateConfig config ≠ None → store_accepted m config = m.
Proof. unfold store_accepted. by destruct (validateConfig config). Qed.

Lemma store_accepted_lookup_ne m config key :
  (validateConfig config = None → key_of config ≠ Some key) →
  store_accepted m config !! key = m !! key.
Proof.
  intros Hkey. destruct (validateConfig config) as [err|] eqn:Hv.
  - by rewrite store_accepted_rejected by by rewrite Hv.
  - destruct (validateConfig_key config Hv) as [key' Hkey'].
    rewrite (store_accepted_key m config key') by done.
    apply lookup_insert_ne. intros ->. by apply Hkey.
Qed.

(** Entries filed under other keys leave a key alone. *)
Lemma foldl_store_lookup_ne batch m key :
  (∀ config, config ∈ batch → validateConfig config = None →
             key_of config ≠ Some key) →
  foldl store_accepted m batch !! key = m !! key.
Proof.
  revert m. induction batch as [|config batch IH]; intros m Hkey; [done|].
  simpl. rewrite IH.
  - apply store_accepted_lookup_ne. apply Hkey. by left.
  - intros config' Hin. apply Hkey. by right.
Qed.

(** The last accepted entry of a key is the one the map holds. *)
Lemma foldl_store_last before config after m key :
  validateConfig config = None → key_of config = Some key →
  (∀ config', config' ∈ after → validateConfig config' = None →
              key_of config' ≠ Some key) →
  foldl store_accepted m (before ++ config :: after) !! key = Some config.
Proof.
  intros Hv Hkey Hafter. rewrite foldl_app. simpl.
  rewrite foldl_store_lookup_ne by done.
  rewrite (store_accepted_key _ config key) by done.
  apply lookup_insert_eq.
Qed.

(** Whatever the map holds was there before or is an accepted entry of the
    batch, under its own key. *)
Lemma foldl_store_lookup_Some batch m key config :
  foldl store_accepted m batch !! key = Some config →
  m !! key = Some config ∨
  (config ∈ batch ∧ validateConfig config = None ∧ key_of config = Some key).
Proof.
  revert m. induction batch as [|config' batch IH]; intros m; [by left|].
  simpl. intros [Hm|(Hin & Hv & Hkey)]%IH.
  - destruct (validateConfig config') as [err|] eqn:Hv'.
    + left. by rewrite store_accepted_rejected in Hm by by rewrite Hv'.
    + destruct (validateConfig_key config' Hv') as [key' Hkey'].
      rewrite (store_accepted_key m config' key') in Hm by done.
      destruct (decide (key' = key)) as [->|Hne].
      * rewrite lookup_insert_eq in Hm. simplify_eq. right.
        split_and!; [by left|done|done].
      * rewrite lookup_insert_ne in Hm by done. by left.
  - right. split_and!; [by right|done|done].
Qed.

(** A key once filed stays filed. *)
Lemma foldl_store_is_Some batch m key :
  is_Some (m !! key) → is_Some (foldl store_accepted m batch !! key).
Proof.
  revert m. induction batch as [|config batch IH]; intros m Hm; [done|].
  simpl. apply IH. unfold store_accepted.
  destruct (validateConfig config); [done|].
  destruct (schema.ParseKindArg (Name config)).1; [|done].
  rewrite lookup_insert. case_decide; [by eexists|done].
Qed.

Lemma foldl_store_elem_of batch m config key :
  config ∈ batch → validateConfig config = None → key_of config = Some key →
  is_Some (foldl store_accepted m batch !! key).
Proof.
  intros (before & after & ->)%list_elem_of_split Hv Hkey.
  rewrite foldl_app. simpl. apply foldl_store_is_Some.
  rewrite (store_accepted_key _ config key) by done.
  rewrite lookup_insert_eq. by eexists.
Qed.

(** Rejected entries could as well be left out of the batch. *)
Lemma foldl_store_filter batch m :
  foldl store_accepted m (filter (λ config, validateConfig config = None) batch) =
  foldl store_accepted m batch.
Proof.
  revert m. induction batch as [|config batch IH]; intros m; [done|].
  destruct (decide (validateConfig config = None)) as [Hv|Hv].
  - rewrite filter_cons_True by done. simpl. apply IH.
  - rewrite filter_cons_False by done. simpl.
    by rewrite store_accepted_rejected.
Qed.

(** With keys that differ, the map lists the batch. *)
Lemma foldl_store_to_list batch :
  Forall (λ config, validateConfig config = None) batch →
  NoDup (key_of <$> batch) →
  Some <$> map_to_list (foldl store_accepted ∅ batch) ≡ₚ
    (λ config, (λ key, (key, config)) <$> key_of config) <$> batch.
Proof.
  induction batch as [|config batch IH] using rev_ind; intros Hall Hdup.
  - simpl. by rewrite map_to_list_empty.
  - apply Forall_app in Hall as [Hall Hv].
    rewrite Forall_singleton in Hv.
    rewrite fmap_app in Hdup. apply NoDup_app in Hdup as (Hdup & Hfresh & _).
    destruct (validateConfig_key config Hv) as [key Hkey].
    rewrite foldl_app. simpl.
    rewrite (store_accepted_key _ config key) by done.
    rewrite map_to_list_insert.
    + rewrite fmap_app, fmap_cons. simpl. rewrite Hkey. simpl.
      rewrite IH by done. by rewrite Permutation_app_comm.
    + destruct (foldl store_accepted ∅ batch !! key) as [config'|] eqn:Hm;
        [|done].
      apply foldl_store_lookup_Some in Hm as [Hm|(Hin & _ & Hkey')];
        [by rewrite lookup_empty in Hm|].
      destruct (Hfresh (Some key)).
      * apply list_elem_of_fmap. by exists config'.
      * rewrite <- Hkey. simpl. by left.
Qed.

(** *** [GetAdapter] and [GetAllAdapters] *)

Lemma GetAdapter_eq (gvk : schema.GroupVersionKind) s :
  GetAdapter gvk s =
    ((λ _, {| gvk := gvk |}) <$> configs (cm s) !! schema.String gvk, s).
Proof.
  unfold GetAdapter. run. by destruct (configs (cm s) !! schema.String gvk).
Qed.

Lemma adapters_range_eq order adapters s :
  adapters_range Name adapters order s =
    (adapters ++ omap (λ entry, adapter_for Name entry.2) order,
     {| cm := cm s;
        klog := klog s ++
          omap (λ entry,
                  match (schema.ParseKindArg (Name entry.2)).1 with
                  | None => Some ("Failed to parse GVK string " +:+ Name entry.2)
                  | Some _ => None
                  end) order |}).
Proof.
  revert adapters s.
  induction order as [|entry order IH]; intros adapters s; cbn.
  - run. rewrite !app_nil_r. by destruct s.
  - unfold mbind, M_bind at 1. unfold adapter_of_entry, adapter_for.
    destruct (schema.ParseKindArg (Name entry.2)).1 eqn:Hparse; run;
      rewrite IH; cbn; rewrite ?Hparse; cbn; by rewrite <- ?app_assoc.

Qed.

Lemma omap_all_Some {A B} (g : A → option B) (l : list A) :
  Forall (λ x, is_Some (g x)) l → Some <$> omap g l = g <$> l.
Proof.
  induction 1 as [|x l [y Hy] _ IH]; [done|].
  cbn [omap list_omap]. rewrite Hy. simpl. by f_equal.
Qed.

(** With keys that differ, visiting the map in any order builds the adapters
    of the batch. *)
Lemma adapters_of_loaded batch order :
  Forall (λ config, validateConfig config = None) batch →
  NoDup (key_of <$> batch) →
  range_order (foldl store_accepted ∅ batch) order →
  Some <$> omap (λ entry, adapter_for Name entry.2) order ≡ₚ
    adapter_for Name <$> batch.
Proof.
  intros Hall Hdup Horder. unfold range_order in Horder.
  assert ((λ entry, adapter_for Name entry.2) <$> order ≡ₚ
          adapter_for Name <$> batch) as Hperm.
  { pose proof (foldl_store_to_list batch Hall Hdup) as Hlist.
    rewrite <- Horder in Hlist.
    apply (fmap_Permutation (λ found, found ≫= λ entry, adapter_for Name entry.2))
      in Hlist.
    rewrite <- !list_fmap_compose in Hlist.
    etrans; [exact Hlist|]. apply reflexive_eq, Forall_fmap_ext.
    eapply Forall_impl; [exact Hall|]. intros config Hv. simpl.
    destruct (validateConfig_key config Hv) as [key ->]. done. }
  rewrite omap_all_Some; [done|].
  apply (Forall_fmap (λ entry, adapter_for Name entry.2) is_Some).
  rewrite Hperm. apply Forall_fmap.
  eapply Forall_impl; [exact Hall|]. intros config Hv. simpl.
  apply validateConfig_None in Hv as [_ [gvk Hgvk]].
  unfold adapter_for. rewrite Hgvk. by eexists.
Qed.

(** *** Which names are accepted *)

Lemma validateConfig_two_dots config :
  validateConfig config = None ↔ 2 ≤ strings.Count (Name config) ".".
Proof.
  rewrite validateConfig_None, ParseKindArg_is_Some.
  split; [by intros [_ ?]|]. intros Hdots. split; [|done].
  intros Hname. rewrite Hname in Hdots. simpl in Hdots. lia.
Qed.

(** *** The properties of the specification *)

(** C1, amended.  Of the short forms without a group it is the one with the
    dot at the end, [Kind.version.] as in ["Pod.v1."], that is accepted: the
    name parses to the identifier of that kind and version with the empty
    group, [validateConfig] returns no error, and [LoadConfigurations] files
    the entry under the string of that identifier.  A name with fewer than
    two dots, as ["Pod.v1"] and ["Pod"], has no identifier: [validateConfig]
    rejects it, and [LoadConfigurations] counts it and files nothing. *)
Theorem groupless_trailing_dot_accepted (kind version : string) config s :
  strings.Count kind "." = 0 → strings.Count version "." = 0 →
  Name config = kind +:+ "." +:+ version +:+ "." →
  let I :=
    {| schema.Group := ""; schema.Version := version; schema.Kind := kind |} in
  (schema.ParseKindArg (Name config)).1 = Some I ∧
  validateConfig config = None ∧
  LoadConfigurations [config] s =
    (None,
     {| cm := {| configs := {[ schema.String I := config ]} |};
        klog := klog s |}) ∧
  (∀ config', strings.Count (Name config') "." < 2 →
     (schema.ParseKindArg (Name config')).1 = None ∧
     validateConfig config' ≠ None ∧
     (LoadConfigurations [config'] s).1 = Some (ErrEncountered 1) ∧
     configs (cm (LoadConfigurations [config'] s).2) = ∅).
Proof.
  intros Hkind Hversion Hname I.
  assert ((schema.ParseKindArg (Name config)).1 = Some I) as Hparse.
  { rewrite Hname. by apply ParseKindArg_groupless. }
  assert (validateConfig config = None) as Hv.
  { apply validateConfig_None. split; [|by rewrite Hparse].
    rewrite Hname. by destruct kind. }
  split_and!; [done|done|..].
  - rewrite LoadConfigurations_eq. cbn [foldl omap list_omap].
    rewrite rejected_none by by apply Forall_singleton.
    rewrite (store_accepted_key _ config (schema.String I))
      by (by unfold key_of; rewrite ?Hparse).
    rewrite Hv. cbn. by rewrite app_nil_r.
  - intros config' Hdots.
    assert (validateConfig config' ≠ None) as Hv'.
    { rewrite validateConfig_two_dots. lia. }
    rewrite LoadConfigurations_eq. cbn [fst snd cm configs foldl].
    rewrite store_accepted_rejected by done.
    split_and!; [|done| |done].
    + destruct (schema.ParseKindArg (Name config')).1 eqn:Hparse'; [|done].
      assert (2 ≤ strings.Count (Name config') ".");
        [apply ParseKindArg_is_Some; by rewrite Hparse'|lia].
    + rewrite filter_cons_True by by apply validateConfig_rejected.
      done.
Qed.

(** C2.  [LoadConfigurations] replaces the map: whatever two managers held
    before, the same batch leaves them with the same map, which is the map it
    gives a manager fresh from [NewConfigManager], and returns the same error,
    whether entries were rejected or not. *)
Theorem LoadConfigurations_replaces batch s1 s2 (log : list string) :
  cm (LoadConfigurations batch s1).2 = cm (LoadConfigurations batch s2).2 ∧
  cm (LoadConfigurations batch s1).2 =
    cm (LoadConfigurations batch {| cm := NewConfigManager; klog := log |}).2 ∧
  (LoadConfigurations batch s1).1 = (LoadConfigurations batch s2).1.
Proof. by rewrite !LoadConfigurations_eq. Qed.

(** C3.  When the batch has an entry whose name is empty or does not parse,
    [LoadConfigurations] returns the error that counts the rejected entries,
    one or more; the map is the one the accepted entries alone would have
    given, it files every accepted entry of the batch under its key,
    whether it stands before or after a rejected one, and it holds nothing
    but accepted entries of the batch, so none of the rejected. *)
Theorem LoadConfigurations_partial_failure batch s :
  (∃ config, config ∈ batch ∧ rejected config) →
  let n := length (filter rejected batch) in
  let loaded := configs (cm (LoadConfigurations batch s).2) in
  0 < n ∧
  (LoadConfigurations batch s).1 = Some (ErrEncountered n) ∧
  loaded =
    configs (cm (LoadConfigurations
      (filter (λ config, validateConfig config = None) batch) s).2) ∧
  (∀ config, config ∈ batch → validateConfig config = None →
     ∃ key, key_of config = Some key ∧ is_Some (loaded !! key)) ∧
  (∀ key config, loaded !! key = Some config →
     config ∈ batch ∧ validateConfig config = None ∧
     key_of config = Some key) ∧
  (∀ key config, config ∈ batch → rejected config →
     loaded !! key ≠ Some config).
Proof.
  intros (bad & Hin & Hbad) n loaded. subst n loaded.
  rewrite !LoadConfigurations_eq. cbn [fst snd cm configs].
  assert (0 < length (filter rejected batch)) as Hn.
  { assert (bad ∈ filter rejected batch) as Hfilter
      by by apply list_elem_of_filter.
    destruct (filter rejected batch); [by apply elem_of_nil in Hfilter|].
    simpl. lia. }
  assert (∀ key config, foldl store_accepted ∅ batch !! key = Some config →
            config ∈ batch ∧ validateConfig config = None ∧
            key_of config = Some key) as Hheld.
  { intros key config [Hm|?]%foldl_store_lookup_Some; [|done].
    by rewrite lookup_empty in Hm. }
  split_and!.
  - done.
  - unfold load_result. by rewrite decide_True.
  - by rewrite foldl_store_filter.
  - intros config Hconfig Hv.
    destruct (validateConfig_key config Hv) as [key Hkey].
    exists key. split; [done|]. by eapply foldl_store_elem_of.
  - done.
  - intros key config _ Hr Hm. apply Hheld in Hm as (_ & Hv & _).
    by apply validateConfig_rejected in Hr.
Qed.

(** C4.  Of two accepted entries of a batch with the same key, the later
    one being the last entry of the batch with that key, the map holds the
    later one under the key; and the error [LoadConfigurations] returns
    counts the rejected entries and nothing else, so that the two add
    nothing to it. *)
Theorem LoadConfigurations_last_write_wins batch s (i j : nat)
    (earlier later : MultiKueueExternalFramework) (key : string) :
  batch !! i = Some earlier → batch !! j = Some later → i < j →
  validateConfig earlier = None → validateConfig later = None →
  key_of earlier = Some key → key_of later = Some key →
  (∀ (j' : nat) config, j < j' → batch !! j' = Some config →
     validateConfig config = None → key_of config ≠ Some key) →
  configs (cm (LoadConfigurations batch s).2) !! key = Some later ∧
  (LoadConfigurations batch s).1 = load_result (length (filter rejected batch)).
Proof.
  intros _ Hj _ _ Hv _ Hkey Hlast.
  rewrite LoadConfigurations_eq. cbn [fst snd cm configs]. split; [|done].
  rewrite <- (take_drop_middle batch j later Hj).
  apply foldl_store_last; [done|done|].
  intros config [k Hk]%list_elem_of_lookup.
  rewrite lookup_drop in Hk. by apply (Hlast (S j + k)); [lia|].
Qed.

(** C5.  After [LoadConfigurations], [GetAdapter] finds the identifier of
    every accepted entry of the batch: it returns an adapter, which carries
    that identifier, hence its canonical string. *)
Theorem GetAdapter_loaded batch s config (I : schema.GroupVersionKind) :
  config ∈ batch → validateConfig config = None →
  (schema.ParseKindArg (Name config)).1 = Some I →
  ∃ adapter,
    (GetAdapter I (LoadConfigurations batch s).2).1 = Some adapter ∧
    gvk adapter = I ∧
    schema.String (gvk adapter) = schema.String I.
Proof.
  intros Hin Hv Hparse. exists {| gvk := I |}. split; [|done].
  rewrite GetAdapter_eq, LoadConfigurations_eq. cbn [fst snd cm configs].
  destruct (foldl_store_elem_of batch ∅ config (schema.String I))
    as [held ->]; [done|done| |done].
  unfold key_of. by rewrite Hparse.
Qed.

(** C6.  When every entry of the batch is accepted and the keys differ,
    [LoadConfigurations] returns no error, and [GetAllAdapters], in whatever
    order it visits the map, returns as many adapters as the batch has
    entries: the adapters of the identifiers of the entries, each once. *)
Theorem GetAllAdapters_loaded batch s order :
  Forall (λ config, validateConfig config = None) batch →
  NoDup (key_of <$> batch) →
  range_order (configs (cm (LoadConfigurations batch s).2)) order →
  let adapters :=
    (GetAllAdapters_in Name order (LoadConfigurations batch s).2).1 in
  (LoadConfigurations batch s).1 = None ∧
  length adapters = length batch ∧
  Some <$> adapters ≡ₚ adapter_for Name <$> batch ∧
  (GetAllAdapters Name (LoadConfigurations batch s).2).1 ≡ₚ adapters.
Proof.
  intros Hall Hdup. rewrite LoadConfigurations_eq. cbn [fst snd cm configs].
  intros Horder.
  unfold GetAllAdapters, GetAllAdapters_in. run.
  rewrite !adapters_range_eq. cbn [fst snd app].
  pose proof (adapters_of_loaded batch order Hall Hdup Horder) as Hperm.
  split_and!.
  - unfold load_result. rewrite decide_False; [done|].
    rewrite rejected_none by done. simpl. lia.
  - apply Permutation_length in Hperm. by rewrite !length_fmap in Hperm.
  - done.
  - unfold range_order in Horder. by rewrite Horder.
Qed.

(** C7.  [LoadConfigurations] twice with a batch leaves the map that
    [LoadConfigurations] once with the batch leaves, and returns the same
    error; this holds of every batch, valid or not. *)
Theorem LoadConfigurations_idempotent batch s :
  cm (LoadConfigurations batch (LoadConfigurations batch s).2).2 =
    cm (LoadConfigurations batch s).2 ∧
  (LoadConfigurations batch (LoadConfigurations batch s).2).1 =
    (LoadConfigurations batch s).1.
Proof. by rewrite !LoadConfigurations_eq. Qed.

(** C8.  For an identifier whose canonical string is no key of the map, as
    is every identifier with a manager fresh from [NewConfigManager],
    [GetAdapter] returns the nil adapter, and there is no error for it to
    return; and [GetAdapter] leaves the state as it found it, whatever the
    identifier. *)
Theorem GetAdapter_absent (gvk : schema.GroupVersionKind) s (log : list string) :
  (configs (cm s) !! schema.String gvk = None → (GetAdapter gvk s).1 = None) ∧
  (GetAdapter gvk
     {| cm := @NewConfigManager MultiKueueExternalFramework; klog := log |}).1
    = None ∧
  (GetAdapter gvk s).2 = s.
Proof.
  rewrite !GetAdapter_eq. cbn [fst snd cm configs NewConfigManager].
  split_and!; [by intros ->|by rewrite lookup_empty|done].
Qed.

(** C9.  [LoadConfigurations] of the empty batch returns no error and
    leaves the map empty, and [GetAllAdapters] then returns no adapter, in the
    one order in which the empty map can be visited. *)
Theorem LoadConfigurations_empty s order :
  range_order (configs (cm (LoadConfigurations [] s).2)) order →
  (LoadConfigurations [] s).1 = None ∧
  configs (cm (LoadConfigurations [] s).2) = ∅ ∧
  order = [] ∧
  (GetAllAdapters_in Name order (LoadConfigurations [] s).2).1 = [] ∧
  (GetAllAdapters Name (LoadConfigurations [] s).2).1 = [].
Proof.
  rewrite LoadConfigurations_eq. cbn [fst snd cm configs foldl].
  unfold range_order. rewrite map_to_list_empty.
  intros ->%Permutation_nil_r.
  unfold GetAllAdapters, GetAllAdapters_in. run.
  by rewrite map_to_list_empty.
Qed.

(** C10.  For an entry that [validateConfig] accepts, the second parse of
    the name in [LoadConfigurations] returns an identifier, so that the turn
    of the loop files the entry and adds no error; hence the errors of the
    loop are the errors of [validateConfig], wrapped, one for each entry it
    rejects and in the order of the batch, and the count that
    [LoadConfigurations] returns is the number of these. *)
Theorem second_parse_succeeds batch errors config s :
  (validateConfig config = None →
   ∃ gvk, (schema.ParseKindArg (Name config)).1 = Some gvk ∧
          load_config Name errors config s =
            (errors,
             {| cm := {| configs := <[schema.String gvk := config]> (configs (cm s)) |};
                klog := klog s |})) ∧
  (load_range Name errors batch s).1 =
    errors ++ omap (λ config, wrapped config) batch ∧
  (LoadConfigurations batch s).1 =
    load_result (length (omap validateConfig batch)).
Proof.
  split_and!.
  - intros Hv. destruct (validateConfig_None config) as [[_ [gvk Hgvk]] _];
      [done|].
    exists gvk. split; [done|].
    rewrite load_config_eq. unfold store_accepted.
    rewrite Hv, Hgvk. cbn. by rewrite !app_nil_r.
  - by rewrite load_range_eq.
  - rewrite LoadConfigurations_eq. cbn [fst]. f_equal.
    rewrite <- rejected_errors.
    induction batch as [|config' batch' IH]; [done|].
    cbn [omap list_omap]. destruct (validateConfig config'); cbn; by rewrite ?IH.
Qed.

(** *** More on [LoadConfigurations] *)

Lemma loaded_lookup_Some batch key config :
  foldl store_accepted ∅ batch !! key = Some config →
  config ∈ batch ∧ validateConfig config = None ∧ key_of config = Some key.
Proof.
  intros [Hm|?]%foldl_store_lookup_Some; [|done].
  by rewrite lookup_empty in Hm.
Qed.

Lemma key_of_not_empty config key : key_of config = Some key → key ≠ "".
Proof.
  unfold key_of. destruct (schema.ParseKindArg (Name config)).1; [|done].
  intros [= <-]. apply String_not_empty.
Qed.

Lemma accepted_rejected_length batch :
  length (filter (λ config, validateConfig config = None) batch) +
  length (filter rejected batch) = length batch.
Proof.
  induction batch as [|config batch IH]; [done|].
  destruct (decide (validateConfig config = None)) as [Hv|Hv].
  - rewrite filter_cons_True by done.
    rewrite (filter_cons_False rejected);
      [simpl; lia|by rewrite <- validateConfig_rejected; intros []].
  - rewrite filter_cons_False by done.
    rewrite (filter_cons_True rejected) by by apply validateConfig_rejected.
    simpl. lia.
Qed.

Lemma reported_rejection_lines batch :
  omap (λ config, reported config) batch =
  rejection_line Name <$> filter rejected batch.
Proof.
  induction batch as [|config batch IH]; [done|]. cbn [omap list_omap].
  rewrite IH. unfold validateConfig at 1, rejection_line.
  destruct (decide (Name config = "")) as [Hname|Hname].
  - rewrite filter_cons_True by by left. by rewrite fmap_cons, decide_True.
  - destruct (schema.ParseKindArg (Name config)).1 eqn:Hparse.
    + rewrite filter_cons_False; [done|]. intros [?|Hnone]; [done|].
      by rewrite Hparse in Hnone.
    + rewrite filter_cons_True by by right.
      by rewrite fmap_cons, decide_False.
Qed.

Lemma loaded_well_keyed batch s :
  well_keyed Name (configs (cm (LoadConfigurations batch s).2)).
Proof.
  rewrite LoadConfigurations_eq. cbn [snd cm configs].
  intros key config (_ & Hv & Hkey)%loaded_lookup_Some.
  split_and!; [by eapply key_of_not_empty|done|done].
Qed.

Lemma GetAllAdapters_cm s : cm (GetAllAdapters Name s).2 = cm s.
Proof.
  unfold GetAllAdapters, GetAllAdapters_in. run.
  by rewrite adapters_range_eq.
Qed.

Lemma loaded_size batch :
  size (foldl store_accepted ∅ batch) ≤
  length (filter (λ config, validateConfig config = None) batch).
Proof.
  induction batch as [|config batch IH] using rev_ind; [done|].
  rewrite foldl_app, filter_app, length_app. cbn [foldl].
  destruct (decide (validateConfig config = None)) as [Hv|Hv].
  - destruct (validateConfig_key config Hv) as [key Hkey].
    rewrite (store_accepted_key _ config key) by done.
    rewrite filter_cons_True by done. simpl.
    destruct (foldl store_accepted ∅ batch !! key) eqn:Hm.
    + rewrite map_size_insert_Some by done. lia.
    + rewrite map_size_insert_None by done. lia.
  - rewrite store_accepted_rejected by done. lia.
Qed.

(** X1.  The map of a manager made by [NewConfigManager] and used through
    [LoadConfigurations], [GetAdapter] and [GetAllAdapters], in any number
    and order of calls, holds under each key an entry that [validateConfig]
    accepts and whose name parses to the identifier with that string; no key
    is the empty string. *)
Theorem calls_keep_well_keyed (calls : list (call (MultiKueueExternalFramework := MultiKueueExternalFramework)))
    (log : list string) :
  well_keyed Name
    (configs (cm (after_calls Name
                    {| cm := NewConfigManager; klog := log |} calls))).
Proof.
  induction calls as [|c calls IH] using rev_ind.
  - intros key config Hm. unfold after_calls, NewConfigManager in Hm.
    cbn [foldl cm configs] in Hm. by rewrite lookup_empty in Hm.
  - unfold after_calls in *. rewrite foldl_app. cbn [foldl].
    destruct c as [batch|gvk|]; cbn [after_call].
    + apply loaded_well_keyed.
    + by rewrite GetAdapter_eq.
    + by rewrite GetAllAdapters_cm.
Qed.

(** X2.  [LoadConfigurations] hands klog one line for each entry it
    rejects, in the order of the batch and after what klog had: the line of
    the missing name for an empty name, the line of the format with the name
    for any other; it hands klog nothing for an accepted entry, and never
    the line of its second check. *)
Theorem LoadConfigurations_klog batch s :
  klog (LoadConfigurations batch s).2 =
    klog s ++ (rejection_line Name <$> filter rejected batch).
Proof.
  rewrite LoadConfigurations_eq. cbn [snd klog].
  by rewrite reported_rejection_lines.
Qed.

(** X3.  [LoadConfigurations] returns no error exactly when
    [validateConfig] accepts every entry of the batch; the error it returns
    otherwise carries the number of rejected entries, which is at least one
    and at most the length of the batch. *)
Theorem LoadConfigurations_error batch s :
  ((LoadConfigurations batch s).1 = None ↔
   Forall (λ config, validateConfig config = None) batch) ∧
  (∀ err, (LoadConfigurations batch s).1 = Some err →
     err = ErrEncountered (length (filter rejected batch)) ∧
     1 ≤ length (filter rejected batch) ≤ length batch).
Proof.
  rewrite LoadConfigurations_eq. cbn [fst]. unfold load_result.
  pose proof (accepted_rejected_length batch) as Hlen.
  split.
  - case_decide as Hn.
    + split; [done|]. intros Hall. rewrite rejected_none in Hn by done.
      simpl in Hn. lia.
    + split; [|done]. intros _. apply Forall_forall. intros config Hin.
      destruct (validateConfig config) as [err|] eqn:Hv; [|done].
      destruct Hn. assert (config ∈ filter rejected batch) as Hfilter.
      { apply list_elem_of_filter. split; [|done].
        apply validateConfig_rejected. by rewrite Hv. }
      destruct (filter rejected batch); [by apply elem_of_nil in Hfilter|].
      simpl. lia.
  - intros err. case_decide; [|done]. intros [= <-]. split; [done|lia].
Qed.

(** X4.  The map [LoadConfigurations] leaves has at most one entry for each
    accepted entry of the batch: its size and the number of rejected entries
    together do not exceed the length of the batch. *)
Theorem LoadConfigurations_size batch s :
  size (configs (cm (LoadConfigurations batch s).2)) +
  length (filter rejected batch) ≤ length batch.
Proof.
  rewrite LoadConfigurations_eq. cbn [snd cm configs].
  pose proof (loaded_size batch). pose proof (accepted_rejected_length batch).
  lia.
Qed.

Lemma loaded_size_distinct batch :
  NoDup (key_of <$> filter (λ config, validateConfig config = None) batch) →
  size (foldl store_accepted ∅ batch) =
  length (filter (λ config, validateConfig config = None) batch).
Proof.
  intros Hdup. rewrite <- foldl_store_filter, <- length_map_to_list.
  pose proof (foldl_store_to_list
    (filter (λ config, validateConfig config = None) batch)) as Hlist.
  apply Permutation_length in Hlist.
  - by rewrite !length_fmap in Hlist.
  - apply Forall_forall. by intros config [? _]%list_elem_of_filter.
  - done.
Qed.

(** X5.  When the accepted entries of the batch have keys that differ,
    every entry of the batch is either in the map or counted as rejected:
    the size of the map and the number of rejected entries add up to the
    length of the batch. *)
Theorem LoadConfigurations_size_distinct batch s :
  NoDup (key_of <$> filter (λ config, validateConfig config = None) batch) →
  size (configs (cm (LoadConfigurations batch s).2)) +
  length (filter rejected batch) = length batch.
Proof.
  intros Hdup. rewrite LoadConfigurations_eq. cbn [snd cm configs].
  rewrite loaded_size_distinct by done. apply accepted_rejected_length.
Qed.

(** *** More on [GetAdapter] and [GetAllAdapters] *)

(** Visiting a well keyed map, [GetAllAdapters] finds an identifier in each
    name, the one whose string is the key, and has nothing for klog. *)
Lemma adapters_of_well_keyed m order :
  well_keyed Name m → range_order m order →
  (schema.String ∘ gvk) <$> omap (λ entry, adapter_for Name entry.2) order =
    order.*1 ∧
  omap (λ entry : string * MultiKueueExternalFramework,
          match (schema.ParseKindArg (Name entry.2)).1 with
          | None => Some ("Failed to parse GVK string " +:+ Name entry.2)
          | Some _ => None
          end) order = [].
Proof.
  intros Hkeyed Horder. unfold range_order in Horder.
  assert (Forall (λ entry, m !! entry.1 = Some entry.2) order) as Hall.
  { apply Forall_forall. intros [key config] Hin. rewrite Horder in Hin.
    by apply elem_of_map_to_list in Hin. }
  clear Horder. induction Hall as [|[key config] order Hm _ [IH1 IH2]];
    [done|].
  apply Hkeyed in Hm as (_ & _ & Hkey). unfold key_of in Hkey.
  cbn [omap list_omap snd fst] in *. unfold adapter_for.
  destruct (schema.ParseKindArg (Name config)).1 as [parsed|]; [|done].
  injection Hkey as Hkey. cbn. rewrite IH2. split; [|done].
  f_equal; [done|]. exact IH1.
Qed.

Lemma GetAllAdapters_after_load_aux batch s order :
  range_order (configs (cm (LoadConfigurations batch s).2)) order →
  (schema.String ∘ gvk) <$>
    (GetAllAdapters_in Name order (LoadConfigurations batch s).2).1 = order.*1.
Proof.
  intros Horder. unfold GetAllAdapters_in.
  rewrite adapters_range_eq. cbn [fst app].
  by destruct (adapters_of_well_keyed _ order (loaded_well_keyed batch s) Horder).
Qed.

(** X6.  After [LoadConfigurations], of any batch, [GetAllAdapters] returns
    one adapter for each entry of the map, in whatever order it visits
    them: as many adapters as the map has entries, and their identifiers
    have the keys of the map as strings, in the order of the visit.  It
    skips no entry, so that it hands klog nothing, and it leaves the manager
    as it was. *)
Theorem GetAllAdapters_after_load batch s order :
  let s' := (LoadConfigurations batch s).2 in
  range_order (configs (cm s')) order →
  (GetAllAdapters_in Name order s').2 = s' ∧
  length (GetAllAdapters_in Name order s').1 = size (configs (cm s')) ∧
  (schema.String ∘ gvk) <$> (GetAllAdapters_in Name order s').1 = order.*1 ∧
  NoDup ((schema.String ∘ gvk) <$> (GetAllAdapters_in Name order s').1).
Proof.
  intros s' Horder. unfold GetAllAdapters_in.
  rewrite adapters_range_eq. cbn [fst snd app].
  destruct (adapters_of_well_keyed _ order (loaded_well_keyed batch s) Horder)
    as [Hkeys Hlog].
  fold s'. rewrite Hlog, app_nil_r. unfold range_order in Horder.
  split_and!.
  - by destruct s'.
  - apply (f_equal length) in Hkeys. rewrite !length_fmap in Hkeys.
    by rewrite Hkeys, Horder, length_map_to_list.
  - done.
  - rewrite Hkeys, Horder. apply NoDup_fst_map_to_list.
Qed.

(** X7.  After [LoadConfigurations], every adapter that [GetAllAdapters]
    returns is the adapter that [GetAdapter] returns for its identifier:
    what the manager lists, it also finds. *)
Theorem GetAllAdapters_found batch s order adapter :
  let s' := (LoadConfigurations batch s).2 in
  range_order (configs (cm s')) order →
  adapter ∈ (GetAllAdapters_in Name order s').1 →
  GetAdapter (gvk adapter) s' = (Some adapter, s').
Proof.
  intros s' Horder Hin.
  pose proof (GetAllAdapters_after_load_aux batch s order Horder) as Hkeys.
  rewrite GetAdapter_eq.
  assert (schema.String (gvk adapter) ∈ order.*1) as Hkey.
  { rewrite <- Hkeys. apply list_elem_of_fmap. by exists adapter. }
  apply list_elem_of_fmap in Hkey as ([key config] & Hkey & Hentry).
  unfold range_order in Horder. rewrite Horder in Hentry.
  apply elem_of_map_to_list in Hentry. cbn in Hkey. subst key.
  fold s'. rewrite Hentry. by destruct adapter.
Qed.

(** X8.  After [LoadConfigurations], [GetAdapter] returns an adapter for
    an identifier exactly when the batch has an accepted entry whose name
    parses to an identifier with the same string: it finds every such
    identifier and no other. *)
Theorem GetAdapter_after_load batch s (I : schema.GroupVersionKind) :
  is_Some (GetAdapter I (LoadConfigurations batch s).2).1 ↔
  ∃ config, config ∈ batch ∧ validateConfig config = None ∧
            key_of config = Some (schema.String I).
Proof.
  rewrite GetAdapter_eq, LoadConfigurations_eq. cbn [fst snd cm configs].
  rewrite fmap_is_Some. split.
  - intros [config Hm]. exists config. by apply loaded_lookup_Some.
  - intros (config & Hin & Hv & Hkey). by eapply foldl_store_elem_of.
Qed.

(** *** Batches put together and reordered *)

Lemma foldl_store_union batch m :
  foldl store_accepted m batch = foldl store_accepted ∅ batch ∪ m.
Proof.
  induction batch as [|config batch IH] using rev_ind.
  - simpl. by rewrite (left_id_L ∅ (∪)).
  - rewrite !foldl_app. cbn [foldl]. rewrite IH.
    destruct (validateConfig config) as [err|] eqn:Hv.
    + by rewrite !store_accepted_rejected by by rewrite Hv.
    + destruct (validateConfig_key config Hv) as [key Hkey].
      rewrite !(store_accepted_key _ config key) by done.
      by rewrite insert_union_l.
Qed.

Lemma loaded_lookup_distinct batch key config :
  NoDup (key_of <$> filter (λ config, validateConfig config = None) batch) →
  foldl store_accepted ∅ batch !! key = Some config ↔
  config ∈ batch ∧ validateConfig config = None ∧ key_of config = Some key.
Proof.
  intros Hdup. split; [apply loaded_lookup_Some|].
  intros ((before & after & ->)%list_elem_of_split & Hv & Hkey).
  apply foldl_store_last; [done|done|].
  intros config' Hin Hv' Hkey'.
  rewrite filter_app, filter_cons_True, fmap_app, fmap_cons in Hdup by done.
  apply NoDup_app in Hdup as (_ & _ & Hdup).
  apply NoDup_cons in Hdup as [Hfresh _]. destruct Hfresh.
  rewrite Hkey, <- Hkey'. apply list_elem_of_fmap. exists config'.
  split; [done|]. by apply list_elem_of_filter.
Qed.

(** X9.  [LoadConfigurations] of two batches put end to end leaves the
    entries of the second batch and, under the keys the second batch does not
    file, the entries of the first; it counts the rejected entries of both,
    and hands klog the lines of the first and then the lines of the
    second. *)
Theorem LoadConfigurations_app batch1 batch2 s :
  configs (cm (LoadConfigurations (batch1 ++ batch2) s).2) =
    configs (cm (LoadConfigurations batch2 s).2) ∪
    configs (cm (LoadConfigurations batch1 s).2) ∧
  (LoadConfigurations (batch1 ++ batch2) s).1 =
    load_result (length (filter rejected batch1) +
                 length (filter rejected batch2)) ∧
  klog (LoadConfigurations (batch1 ++ batch2) s).2 =
    klog (LoadConfigurations batch2 (LoadConfigurations batch1 s).2).2.
Proof.
  rewrite !LoadConfigurations_eq. cbn [fst snd cm configs klog].
  split_and!.
  - rewrite foldl_app. apply foldl_store_union.
  - by rewrite filter_app, length_app.
  - by rewrite omap_app, app_assoc.
Qed.

(** X10.  When the accepted entries of a batch have keys that differ, the
    order of the batch does not matter to [LoadConfigurations]: a batch
    with the same entries in another order leaves the same map and returns
    the same error. *)
Theorem LoadConfigurations_Permutation batch1 batch2 s :
  batch1 ≡ₚ batch2 →
  NoDup (key_of <$> filter (λ config, validateConfig config = None) batch1) →
  cm (LoadConfigurations batch1 s).2 = cm (LoadConfigurations batch2 s).2 ∧
  (LoadConfigurations batch1 s).1 = (LoadConfigurations batch2 s).1.
Proof.
  intros Hperm Hdup. rewrite !LoadConfigurations_eq. cbn [fst snd cm].
  split.
  - f_equal. apply map_eq. intros key. apply option_eq. intros config.
    rewrite !loaded_lookup_distinct; [by rewrite Hperm|by rewrite <- Hperm|done].
  - by rewrite Hperm.
Qed.

(** *** Names, identifiers and keys *)

Lemma Count_join (kind version group : string) (sep : ascii) :
  sep ≠ "."%char →
  strings.Count (kind +:+ "." +:+ version +:+ "." +:+ group) sep =
  strings.Count kind sep + strings.Count version sep +
  strings.Count group sep.
Proof.
  intros Hsep. change ("." +:+ group) with (String "." group).
  change ("." +:+ ?s) with (String "." s).
  rewrite Count_app. cbn [strings.Count]. rewrite decide_False by done.
  rewrite Count_app. cbn [strings.Count]. rewrite decide_False by done.
  lia.
Qed.

(** Names without slash and comma that have the same key are the same. *)
Lemma key_of_inj config1 config2 :
  validateConfig config1 = None → validateConfig config2 = None →
  strings.Count (Name config1) "/" = 0 → strings.Count (Name config1) "," = 0 →
  strings.Count (Name config2) "/" = 0 → strings.Count (Name config2) "," = 0 →
  key_of config1 = key_of config2 → Name config1 = Name config2.
Proof.
  intros [_ [gvk1 Hgvk1]]%validateConfig_None
         [_ [gvk2 Hgvk2]]%validateConfig_None.
  unfold key_of. rewrite Hgvk1, Hgvk2.
  apply ParseKindArg_Some in Hgvk1 as (-> & _ & _).
  apply ParseKindArg_Some in Hgvk2 as (-> & _ & _).
  rewrite !Count_join by done. intros ???? [= Hkey].
  apply String_inj in Hkey; [by subst|lia..].
Qed.

Lemma distinct_names_distinct_keys batch :
  NoDup (Name <$> batch) →
  Forall (λ config, strings.Count (Name config) "/" = 0 ∧
                    strings.Count (Name config) "," = 0) batch →
  NoDup (key_of <$> filter (λ config, validateConfig config = None) batch).
Proof.
  induction batch as [|config batch IH]; [constructor|].
  rewrite fmap_cons, NoDup_cons, Forall_cons.
  intros [Hfresh Hdup] [[Hslash Hcomma] Hall].
  destruct (decide (validateConfig config = None)) as [Hv|Hv].
  - rewrite filter_cons_True by done. rewrite fmap_cons. apply NoDup_cons.
    split; [|by apply IH].
    intros (config' & Hkey & [Hv' Hin]%list_elem_of_filter)%list_elem_of_fmap.
    destruct Hfresh. apply list_elem_of_fmap. exists config'. split; [|done].
    rewrite Forall_forall in Hall. destruct (Hall config' Hin).
    by apply key_of_inj.
  - rewrite filter_cons_False by done. by apply IH.
Qed.


(** X12.  For an identifier whose kind and version have no dot, the entry
    named kind, dot, version, dot, group is accepted, whatever the group;
    [LoadConfigurations] of that entry alone returns no error and leaves
    the map with that entry under the string of the identifier, and
    [GetAdapter] then returns the adapter of the identifier. *)
Theorem identifier_round_trip (I : schema.GroupVersionKind) config s :
  strings.Count (schema.Kind I) "." = 0 →
  strings.Count (schema.Version I) "." = 0 →
  Name config =
    schema.Kind I +:+ "." +:+ schema.Version I +:+ "." +:+ schema.Group I →
  validateConfig config = None ∧
  (LoadConfigurations [config] s).1 = None ∧
  configs (cm (LoadConfigurations [config] s).2) =
    {[ schema.String I := config ]} ∧
  (GetAdapter I (LoadConfigurations [config] s).2).1 = Some {| gvk := I |}.
Proof.
  intros Hkind Hversion Hname.
  assert ((schema.ParseKindArg (Name config)).1 = Some I) as Hparse.
  { rewrite Hname. by apply ParseKindArg_join. }
  assert (validateConfig config = None) as Hv.
  { apply validateConfig_None. split; [|by rewrite Hparse].
    rewrite Hname. by destruct (schema.Kind I). }
  assert (foldl store_accepted ∅ [config] = {[ schema.String I := config ]})
    as Hmap.
  { cbn [foldl]. apply store_accepted_key; [done|].
    unfold key_of. by rewrite Hparse. }
  rewrite GetAdapter_eq, LoadConfigurations_eq. cbn [fst snd cm configs].
  rewrite Hmap, rejected_none by by apply Forall_singleton.
  split_and!; [done|done|done|]. by rewrite lookup_singleton_eq.
Qed.


(** X14.  When the names of a batch differ from one another and have
    neither slash nor comma, [LoadConfigurations] overwrites nothing: each
    entry of the batch is in the map or counted as rejected, the size of
    the map and the count adding up to the length of the batch, and each
    accepted entry is the one the map holds under its key. *)
Theorem LoadConfigurations_distinct_names batch s :
  NoDup (Name <$> batch) →
  Forall (λ config, strings.Count (Name config) "/" = 0 ∧
                    strings.Count (Name config) "," = 0) batch →
  size (configs (cm (LoadConfigurations batch s).2)) +
    length (filter rejected batch) = length batch ∧
  (∀ config key, config ∈ batch → validateConfig config = None →
     key_of config = Some key →
     configs (cm (LoadConfigurations batch s).2) !! key = Some config).
Proof.
  intros Hnames Hplain.
  pose proof (distinct_names_distinct_keys batch Hnames Hplain) as Hdup.
  rewrite LoadConfigurations_eq. cbn [snd cm configs]. split.
  - rewrite loaded_size_distinct by done. apply accepted_rejected_length.
  - intros config key Hin Hv Hkey. by apply loaded_lookup_distinct.
Qed.

End ConfigManagerFacts.

(** ** The properties at work on the example batches *)
Section Witnesses.

Import configapi Examples.

(** C1 as the specification has it fails: ["Pod.v1"] and ["Pod"] have no
    identifier, [validateConfig] returns an error for both, and
    [LoadConfigurations] counts two errors and files nothing. *)
Lemma short_forms_without_two_dots_rejected :
  (schema.ParseKindArg "Pod.v1").1 = None ∧
  (schema.ParseKindArg "Pod").1 = None ∧
  validateConfig Name (entry "Pod.v1") = Some (ErrInvalidGVKFormat "Pod.v1") ∧
  validateConfig Name (entry "Pod") = Some (ErrInvalidGVKFormat "Pod") ∧
  LoadConfigurations Name [entry "Pod.v1"; entry "Pod"] fresh =
    (Some (ErrEncountered 2),
     {| cm := NewConfigManager;
        klog := ["Invalid external framework configuration: invalid GVK format 'Pod.v1'";
                 "Invalid external framework configuration: invalid GVK format 'Pod'"] |}).
Proof. split_and!; reflexivity. Qed.

(** The scenario of the specification: one failure, two adapters. *)
Example scenario_of_the_specification :
  (LoadConfigurations Name scenario fresh).1 = Some (ErrEncountered 1) ∧
  (GetAllAdapters Name (LoadConfigurations Name scenario fresh).2).1 =
    [ {| gvk := {| schema.Group := ""; schema.Version := "v1";
                   schema.Kind := "Pod" |} |};
      {| gvk := {| schema.Group := "batch"; schema.Version := "v1";
                   schema.Kind := "Job" |} |} ] ∧
  Error (ErrEncountered 1) =
    "encountered 1 configuration errors (see logs for details)".
Proof. split_and!; reflexivity. Qed.

Lemma groupless_trailing_dot_accepted_witness :
  Name (entry "Pod.v1.") = "Pod" +:+ "." +:+ "v1" +:+ "." ∧
  validateConfig Name (entry "Pod.v1.") = None ∧
  LoadConfigurations Name [entry "Pod.v1."] fresh =
    (None,
     {| cm := {| configs := {[ "/v1, Kind=Pod" := entry "Pod.v1." ]} |};
        klog := [] |}).
Proof.
  split; [reflexivity|].
  destruct (groupless_trailing_dot_accepted Name "Pod" "v1"
              (entry "Pod.v1.") fresh eq_refl eq_refl eq_refl)
    as (_ & Hv & Hload & _).
  split; [exact Hv|exact Hload].
Defined.

Lemma LoadConfigurations_partial_failure_witness :
  (∃ config, config ∈ scenario ∧ rejected Name config) ∧
  (LoadConfigurations Name scenario used).1 = Some (ErrEncountered 1) ∧
  dom (configs (cm (LoadConfigurations Name scenario used).2)) =
    {[ "/v1, Kind=Pod"; "batch/v1, Kind=Job" ]}.
Proof.
  assert (∃ config, config ∈ scenario ∧ rejected Name config) as Hbad.
  { exists (entry ""). split; [|by left].
    unfold scenario. apply list_elem_of_further, list_elem_of_here. }
  split; [exact Hbad|]. split.
  - exact (proj1 (proj2
      (LoadConfigurations_partial_failure Name scenario used Hbad))).
  - reflexivity.
Defined.

Lemma LoadConfigurations_last_write_wins_witness :
  configs (cm (LoadConfigurations Name colliding used).2) !! "x/y/z, Kind=k"
    = Some (entry "k.z.x/y") ∧
  (LoadConfigurations Name colliding used).1 = Some (ErrEncountered 1).
Proof.
  apply (LoadConfigurations_last_write_wins Name colliding used 0 2
           (entry "k.y/z.x") (entry "k.z.x/y") "x/y/z, Kind=k");
    try reflexivity.
  - lia.
  - intros [|[|[|j']]] config Hlater Hlookup; try lia. discriminate Hlookup.
Defined.

Lemma GetAdapter_loaded_witness :
  ∃ adapter,
    (GetAdapter {| schema.Group := "batch"; schema.Version := "v1";
                   schema.Kind := "Job" |}
       (LoadConfigurations Name scenario used).2).1 = Some adapter ∧
    schema.String (gvk adapter) = "batch/v1, Kind=Job".
Proof.
  destruct (GetAdapter_loaded Name scenario used (entry "Job.v1.batch")
              {| schema.Group := "batch"; schema.Version := "v1";
                 schema.Kind := "Job" |})
    as (adapter & Hfound & _ & Hstring).
  - unfold scenario. do 2 apply list_elem_of_further. apply list_elem_of_here.
  - reflexivity.
  - reflexivity.
  - exists adapter. split; [exact Hfound|exact Hstring].
Defined.

Lemma GetAllAdapters_loaded_witness :
  Forall (λ config, validateConfig Name config = None) valid_batch ∧
  NoDup (key_of Name <$> valid_batch) ∧
  (LoadConfigurations Name valid_batch used).1 = None ∧
  length (GetAllAdapters Name (LoadConfigurations Name valid_batch used).2).1
    = 3.
Proof.
  assert (Forall (λ config, validateConfig Name config = None) valid_batch)
    as Hall by (repeat constructor).
  assert (NoDup (key_of Name <$> valid_batch)) as Hdup
    by (apply (bool_decide_unpack _); vm_compute; exact I).
  split; [exact Hall|]. split; [exact Hdup|].
  destruct (GetAllAdapters_loaded Name valid_batch used
              (map_to_list (configs (cm (LoadConfigurations Name valid_batch used).2)))
              Hall Hdup) as (Herr & Hlen & _ & _).
  - unfold range_order. reflexivity.
  - split; [exact Herr|exact Hlen].
Defined.

Lemma GetAdapter_absent_witness :
  configs (cm used) !! "/v1, Kind=Pod" = None ∧
  (GetAdapter {| schema.Group := ""; schema.Version := "v1";
                 schema.Kind := "Pod" |} used) = (None, used).
Proof.
  split; [reflexivity|].
  destruct (GetAdapter_absent
              {| schema.Group := ""; schema.Version := "v1";
                 schema.Kind := "Pod" |} used [])
    as (Habsent & _ & Hpure).
  apply injective_projections; [apply Habsent; reflexivity|exact Hpure].
Defined.

Lemma LoadConfigurations_empty_witness :
  range_order (configs (cm (LoadConfigurations Name [] used).2)) [] ∧
  (LoadConfigurations Name [] used).1 = None ∧
  (GetAllAdapters Name (LoadConfigurations Name [] used).2).1 = [].
Proof.
  assert (range_order (configs (cm (LoadConfigurations Name [] used).2)) [])
    as Horder by (unfold range_order; vm_compute; constructor).
  split; [exact Horder|].
  destruct (LoadConfigurations_empty Name used [] Horder)
    as (Herr & _ & _ & _ & Hall).
  split; [exact Herr|exact Hall].
Defined.

Lemma second_parse_succeeds_witness :
  validateConfig Name (entry "Pod.v1.") = None ∧
  (∃ gvk, (schema.ParseKindArg "Pod.v1.").1 = Some gvk) ∧
  (load_range Name [] scenario fresh).1 =
    [ErrConfig "" ErrNameRequired].
Proof.
  split; [reflexivity|].
  destruct (second_parse_succeeds Name scenario [] (entry "Pod.v1.") fresh)
    as (Hparse & Herrors & _).
  split; [|exact Herrors].
  destruct (Hparse eq_refl) as (gvk & Hgvk & _). by exists gvk.
Defined.

Lemma LoadConfigurations_error_witness :
  (LoadConfigurations Name scenario used).1 = Some (ErrEncountered 1) ∧
  1 ≤ length (filter (rejected Name) scenario) ≤ length scenario.
Proof.
  destruct (LoadConfigurations_error Name scenario used) as [_ Herr].
  destruct (Herr (ErrEncountered 1) eq_refl) as [_ Hbounds].
  split; [reflexivity|exact Hbounds].
Defined.

Lemma LoadConfigurations_size_distinct_witness :
  NoDup (key_of Name <$>
           filter (λ config, validateConfig Name config = None) scenario) ∧
  size (configs (cm (LoadConfigurations Name scenario used).2)) + 1 = 3.
Proof.
  assert (NoDup (key_of Name <$>
            filter (λ config, validateConfig Name config = None) scenario))
    as Hdup by (apply (bool_decide_unpack _); vm_compute; exact I).
  split; [exact Hdup|].
  exact (LoadConfigurations_size_distinct Name scenario used Hdup).
Defined.

Lemma GetAllAdapters_after_load_witness :
  let s' := (LoadConfigurations Name scenario used).2 in
  range_order (configs (cm s')) (map_to_list (configs (cm s'))) ∧
  (GetAllAdapters Name s').2 = s' ∧
  length (GetAllAdapters Name s').1 = 2.
Proof.
  intros s'.
  assert (range_order (configs (cm s')) (map_to_list (configs (cm s'))))
    as Horder by (unfold range_order; reflexivity).
  split; [exact Horder|].
  destruct (GetAllAdapters_after_load Name scenario used _ Horder)
    as (Hstate & Hlength & _ & _).
  split; [exact Hstate|exact Hlength].
Defined.

Lemma GetAllAdapters_found_witness :
  let s' := (LoadConfigurations Name scenario used).2 in
  let pod := {| gvk := {| schema.Group := ""; schema.Version := "v1";
                          schema.Kind := "Pod" |} |} in
  pod ∈ (GetAllAdapters Name s').1 ∧
  GetAdapter (gvk pod) s' = (Some pod, s').
Proof.
  intros s' pod.
  assert (pod ∈ (GetAllAdapters Name s').1) as Hin
    by (vm_compute; apply list_elem_of_here).
  split; [exact Hin|].
  apply (GetAllAdapters_found Name scenario used
           (map_to_list (configs (cm s'))) pod).
  - unfold range_order. reflexivity.
  - exact Hin.
Defined.

Lemma LoadConfigurations_Permutation_witness :
  scenario ≡ₚ [entry ""; entry "Pod.v1."; entry "Job.v1.batch"] ∧
  cm (LoadConfigurations Name scenario used).2 =
    cm (LoadConfigurations Name
          [entry ""; entry "Pod.v1."; entry "Job.v1.batch"] fresh).2.
Proof.
  assert (scenario ≡ₚ [entry ""; entry "Pod.v1."; entry "Job.v1.batch"])
    as Hperm by apply perm_swap.
  split; [exact Hperm|].
  destruct (LoadConfigurations_Permutation Name scenario
              [entry ""; entry "Pod.v1."; entry "Job.v1.batch"] used Hperm)
    as [Hcm _].
  - apply (bool_decide_unpack _). vm_compute. exact I.
  - rewrite Hcm. reflexivity.
Defined.


Lemma identifier_round_trip_witness :
  let I := {| schema.Group := "batch.example.com"; schema.Version := "v1";
              schema.Kind := "MyJob" |} in
  Name (entry "MyJob.v1.batch.example.com") =
    schema.Kind I +:+ "." +:+ schema.Version I +:+ "." +:+ schema.Group I ∧
  (GetAdapter I
     (LoadConfigurations Name [entry "MyJob.v1.batch.example.com"] used).2).1
    = Some {| gvk := I |}.
Proof.
  intros I. split; [reflexivity|].
  exact (proj2 (proj2 (proj2
    (identifier_round_trip Name I (entry "MyJob.v1.batch.example.com") used
       eq_refl eq_refl eq_refl)))).
Defined.


Lemma LoadConfigurations_distinct_names_witness :
  NoDup (Name <$> scenario) ∧
  size (configs (cm (LoadConfigurations Name scenario used).2)) + 1 = 3 ∧
  configs (cm (LoadConfigurations Name scenario used).2)
    !! "batch/v1, Kind=Job" = Some (entry "Job.v1.batch").
Proof.
  assert (NoDup (Name <$> scenario)) as Hnames
    by (apply (bool_decide_unpack _); vm_compute; exact I).
  split; [exact Hnames|].
  destruct (LoadConfigurations_distinct_names Name scenario used Hnames)
    as [Hsize Hheld].
  - repeat constructor.
  - split; [exact Hsize|].
    apply Hheld; [|reflexivity|reflexivity].
    unfold scenario. do 2 apply list_elem_of_further. apply list_elem_of_here.
Defined.

End Witnesses.
